(** * dbn_to_parquet.py: a shallow embedding and its properties

    The script converts DBN files to parquet files, one per command-line
    argument, through two operations of the [databento] package which it
    treats as opaque: [DBNStore.from_file] and [DBNStore.to_parquet].

    The embedding keeps the script's control flow (a guard that exits, then
    a [for] loop), its string arithmetic and the order of its effects.  The
    [databento] package is an interface ([Class Databento]); everything is
    proved for every implementation of it. *)

From Stdlib Require Import ZArith Ascii.
From stdpp Require Import base list strings gmap.

Set Default Proof Using "Type".
Local Open Scope Z_scope.

(** ** The external collaborator

    [World] is whatever the package can observe and change (the file system,
    above all).  A call either raises a [Failure] (an ordinary exception: a
    decode error, an I/O or schema error) or returns; both may change the
    world.  A Python call carries a list of positional arguments: the
    package, not the script, decides what each arity means. *)

Class Databento := {
  World : Type;
  Store : Type;
  Failure : Type;
  from_file : list string → World → World * (Failure + Store);
  to_parquet : Store → list string → World → World * (Failure + unit);
}.

(** ** Python's effects, as far as the script uses them *)

Section Python.
Context `{Databento}.

(** What can unwind the stack: [sys.exit(code)] raises [SystemExit]; a
    failure of the package is an ordinary exception. *)
Inductive exception :=
| SystemExit (code : Z)
| Raised (e : Failure).

Inductive completion (A : Type) :=
| Normal (a : A)
| Abrupt (x : exception).
Global Arguments Normal {A} a.
Global Arguments Abrupt {A} x.

(** Observable events, in the order they happen.  A call is recorded with
    the arguments it received and with what it answered. *)
Inductive event :=
| stderr_write (s : string)
| call_from_file (args : list string) (r : Failure + Store)
| call_to_parquet (self : Store) (args : list string) (r : Failure + unit).

(** A computation reads the world and yields the events it caused, the new
    world and how it completed. *)
Definition Py (A : Type) : Type := World → list event * World * completion A.

Definition ret {A} (a : A) : Py A := λ w, ([], w, Normal a).

Definition bind {A B} (m : Py A) (k : A → Py B) : Py B := λ w,
  match m w with
  | (t1, w1, Normal a) =>
      match k a w1 with
      | (t2, w2, r) => (t1 ++ t2, w2, r)
      end
  | (t1, w1, Abrupt x) => (t1, w1, Abrupt x)
  end.

Definition sys_stderr_write (s : string) : Py unit := λ w,
  ([stderr_write s], w, Normal tt).

Definition sys_exit {A} (code : Z) : Py A := λ w,
  ([], w, Abrupt (SystemExit code)).

Definition DBNStore_from_file (args : list string) : Py Store := λ w,
  match from_file args w with
  | (w1, inl e) => ([call_from_file args (inl e)], w1, Abrupt (Raised e))
  | (w1, inr st) => ([call_from_file args (inr st)], w1, Normal st)
  end.

Definition DBNStore_to_parquet (self : Store) (args : list string) : Py unit := λ w,
  match to_parquet self args w with
  | (w1, inl e) => ([call_to_parquet self args (inl e)], w1, Abrupt (Raised e))
  | (w1, inr u) => ([call_to_parquet self args (inr u)], w1, Normal tt)
  end.
End Python.

(** Arguments are read against the expected type first, so that a run on a
    given implementation can be written down with plain constructors. *)
Arguments Raised {_} & e.
Arguments Abrupt {_ A} & x.
Arguments call_from_file {_} & args r.
Arguments call_to_parquet {_} & self args r.

(** [Py] is a monad; the script is written with stdpp's notations
    [x ← m; k] and [m;; k]. *)
Global Instance Py_ret `{Databento} : MRet Py := @ret _.
Global Instance Py_bind `{Databento} : MBind Py := λ A B k m, bind m k.

(** [for x in xs: body] *)
Fixpoint for_in `{Databento} {A} (xs : list A) (body : A → Py unit) : Py unit :=
  match xs with
  | [] => mret tt
  | x :: xs' => body x;; for_in xs' body
  end.

(** ** The script *)

(** The character written as backslash-n in the Python source. *)
Definition nl : string := String "010"%char EmptyString.

Definition usage : string := "Usage: dbn_to_parquet.py <filename>" +:+ nl.

(** One round of the loop (the body of [for filename in sys.argv[1:]]). *)
Definition convert `{Databento} (filename : string) : Py unit :=
  sys_stderr_write (("Processing " +:+ filename) +:+ nl);;
  dbn_data ← DBNStore_from_file [filename];
  let pqfilename := filename +:+ ".parquet" in
  DBNStore_to_parquet dbn_data [pqfilename];;
  sys_stderr_write (("Created " +:+ pqfilename) +:+ nl).

(** [main()], with [sys.argv] made a parameter.  [sys.argv[0]] is the
    program's name; [sys.argv[1:]] is [drop 1 argv]. *)
Definition main `{Databento} (argv : list string) : Py unit :=
  (if (length argv <? 2)%nat
   then sys_stderr_write usage;; sys_exit 1
   else mret tt);;
  for_in (drop 1 argv) convert.

(** What the interpreter makes of [main()]'s completion when the script is
    run as a program: status 0 after a normal return, the code of
    [sys.exit], and 1 after any other uncaught exception. *)
Definition exit_status `{Databento} (r : completion unit) : Z :=
  match r with
  | Normal _ => 0
  | Abrupt (SystemExit code) => code
  | Abrupt (Raised _) => 1
  end.

Definition events `{Databento} {A} (o : list event * World * completion A) : list event := o.1.1.
Definition world `{Databento} {A} (o : list event * World * completion A) : World := o.1.2.
Definition outcome `{Databento} {A} (o : list event * World * completion A) : completion A := o.2.

(** The module's last statement, [if __name__ == "__main__": main()], with
    [__name__] made a parameter: the interpreter binds it to [__main__] when
    the file is run as a program and to the module's name when it is
    imported. *)
Definition script `{Databento} (name__ : string) (argv : list string) : Py unit :=
  if String.eqb name__ "__main__" then main argv else mret tt.

(** ** Reading a run

    The vocabulary of the specification, defined on the events of a run. *)

Section Observations.
Context `{Databento}.

(** The strings written to standard error, oldest first. *)
Definition stderr (t : list event) : list string :=
  omap (λ e, match e with stderr_write s => Some s | _ => None end) t.

(** The argument lists the load operation was invoked with. *)
Definition loads (t : list event) : list (list string) :=
  omap (λ e, match e with call_from_file args _ => Some args | _ => None end) t.

(** The argument lists the export operation was invoked with. *)
Definition exports (t : list event) : list (list string) :=
  omap (λ e, match e with call_to_parquet _ args _ => Some args | _ => None end) t.

(** The output files of a run.  The collaborator's contract is that an
    export either writes the file at the path it is given or fails, so the
    files created are the paths of the exports that returned. *)
Definition created (t : list event) : list string :=
  omap (λ e, match e with
             | call_to_parquet _ (path :: _) (inr _) => Some path
             | _ => None
             end) t.

(** Did the package raise at this event? *)
Definition raised (e : event) : bool :=
  match e with
  | call_from_file _ (inl _) | call_to_parquet _ _ (inl _) => true
  | _ => false
  end.

(** What the package does for one input when asked the way the
    specification describes: load the file, export the handle next to it. *)
Definition conversion (f : string) (w : World) : World * (Failure + unit) :=
  match from_file [f] w with
  | (w1, inl e) => (w1, inl e)
  | (w1, inr st) => to_parquet st [f +:+ ".parquet"] w1
  end.

(** The same for a batch, stopping at the first failure. *)
Fixpoint conversions (fs : list string) (w : World) : World * (Failure + unit) :=
  match fs with
  | [] => (w, inr tt)
  | f :: fs' =>
      match conversion f w with
      | (w1, inr _) => conversions fs' w1
      | (w1, inl e) => (w1, inl e)
      end
  end.

(** [f] is a valid input in world [w]: it converts, leaving world [w']. *)
Definition converts (f : string) (w w' : World) : Prop :=
  conversion f w = (w', inr tt).

(** [f] fails in world [w] with [e], at the load or at the export. *)
Definition fails (f : string) (w : World) (e : Failure) (w' : World) : Prop :=
  conversion f w = (w', inl e).

Definition fails_to_decode (f : string) (w : World) (e : Failure) (w' : World) : Prop :=
  from_file [f] w = (w', inl e).

Definition converts_all (fs : list string) (w w' : World) : Prop :=
  conversions fs w = (w', inr tt).
End Observations.

(** The events of a run are the calls really made: replayed from world [w],
    each recorded call is what the package answers to those arguments in the
    world the calls before it left, and [w'] is the world after the last of
    them.  Writes to standard error leave the world alone. *)
Fixpoint performed `{Databento} (t : list event) (w w' : World) : Prop :=
  match t with
  | [] => w' = w
  | stderr_write _ :: t' => performed t' w w'
  | call_from_file args r :: t' =>
      ∃ w1, from_file args w = (w1, r) ∧ performed t' w1 w'
  | call_to_parquet self args r :: t' =>
      ∃ w1, to_parquet self args w = (w1, r) ∧ performed t' w1 w'
  end.

(** The assumptions under which the specification speaks of running the
    program twice: the package is deterministic in the files it works on.
    [read w path] is what world [w] holds at [path] (nothing, or a file's
    contents).

    A load answers by the file at its path alone, and changes no file. *)
Definition load_reads_its_input `{Databento} {Content : Type}
    (read : World → string → option Content) : Prop :=
  (∀ path w w',
     read w path = read w' path →
     (from_file [path] w).2 = (from_file [path] w').2) ∧
  (∀ path w q, read (from_file [path] w).1 q = read w q).

(** An export answers by its handle, its path and the files elsewhere (what
    is already at its own path does not matter: writing over a file is like
    creating it); it changes no file but the one at its path; and when it
    returns that file holds the rendering of the handle. *)
Definition export_writes_its_output `{Databento} {Content : Type}
    (read : World → string → option Content) (render : Store → Content) : Prop :=
  (∀ st path w w',
     (∀ q, q ≠ path → read w q = read w' q) →
     (to_parquet st [path] w).2 = (to_parquet st [path] w').2) ∧
  (∀ st path w q, q ≠ path → read (to_parquet st [path] w).1 q = read w q) ∧
  (∀ st path w w',
     to_parquet st [path] w = (w', inr tt) → read w' path = Some (render st)).

(** The two progress lines in the specification's words. *)
Definition processing_line (f : string) : string := "Processing " +:+ f +:+ nl.
Definition created_line (f : string) : string := "Created " +:+ f +:+ ".parquet" +:+ nl.
Definition progress_lines (f : string) : list string := [processing_line f; created_line f].

(** [s.startswith(p)] *)
Fixpoint starts_with (p s : string) : bool :=
  match p, s with
  | "", _ => true
  | String _ _, "" => false
  | String a p', String b s' => if Ascii.eqb a b then starts_with p' s' else false
  end.

Definition is_processing_line (s : string) : bool := starts_with "Processing " s.
Definition is_created_line (s : string) : bool := starts_with "Created " s.

(** How many of the lines satisfy [p]. *)
Definition count_lines (p : string → bool) (lines : list string) : nat :=
  length (List.filter p lines).

(** How many times [p] occurs in [s] (overlaps counted). *)
Fixpoint occurrences (p s : string) : nat :=
  match s with
  | "" => 0
  | String _ s' => ((if starts_with p s then 1 else 0) + occurrences p s')%nat
  end.

(** The name of the output file for an input file, and the argument lists
    the two operations are to receive for it. *)
Definition output_name (f : string) : string := f +:+ ".parquet".
Definition load_args (f : string) : list string := [f].
Definition export_args (f : string) : list string := [output_name f].

(** The Created line for an output path, as the code builds it from
    [pqfilename]. *)
Definition created_line_of (path : string) : string := ("Created " +:+ path) +:+ nl.

(** The specification's per-file sequence, without the values that only the
    package determines. *)
Inductive action :=
| Announce (line : string)
| Load (args : list string)
| Export (args : list string).

Definition action_of `{Databento} (e : event) : action :=
  match e with
  | stderr_write s => Announce s
  | call_from_file args _ => Load args
  | call_to_parquet _ args _ => Export args
  end.

Definition steps (f : string) : list action :=
  [ Announce (processing_line f); Load [f];
    Export [f +:+ ".parquet"]; Announce (created_line f) ].

(** The events of one successful round, [st] being the handle the load
    returned. *)
Definition round `{Databento} (f : string) (st : Store) : list event :=
  [ stderr_write (processing_line f); call_from_file [f] (inr st);
    call_to_parquet st [f +:+ ".parquet"] (inr tt); stderr_write (created_line f) ].

(** The shapes a loop's events can take: full rounds, then either the end of
    the list or a round cut short by the exception that leaves the loop. *)
Inductive loop_run `{Databento} : list string → list event → completion unit → Prop :=
| loop_done :
    loop_run [] [] (Normal tt)
| loop_round f fs st t r :
    loop_run fs t r →
    loop_run (f :: fs) (round f st ++ t) r
| loop_load_raises f fs e :
    loop_run (f :: fs)
      [stderr_write (processing_line f); call_from_file [f] (inl e)]
      (Abrupt (Raised e))
| loop_export_raises f fs st e :
    loop_run (f :: fs)
      [stderr_write (processing_line f); call_from_file [f] (inr st);
       call_to_parquet st [f +:+ ".parquet"] (inl e)]
      (Abrupt (Raised e)).

(** ** A small implementation of the interface

    Files are a finite map from paths to contents.  A path beginning with
    [bad] does not decode; a path under [/ro/] cannot be written; a call with
    another number of arguments is a type error. *)

Module Sim.
Inductive failure :=
| TypeError
| DecodeError (path : string)
| WriteError (path : string).

Definition load (args : list string) (fs : gmap string string)
  : gmap string string * (failure + string) :=
  match args with
  | [path] =>
      if starts_with "bad" path then (fs, inl (DecodeError path))
      else (fs, inr ("records of " +:+ path))
  | _ => (fs, inl TypeError)
  end.

Definition read (fs : gmap string string) (path : string) : option string :=
  fs !! path.

Definition render (st : string) : string := "PAR1 " +:+ st.

Definition export (st : string) (args : list string) (fs : gmap string string)
  : gmap string string * (failure + unit) :=
  match args with
  | [path] =>
      if starts_with "/ro/" path then (fs, inl (WriteError path))
      else (<[path := render st]> fs, inr tt)
  | _ => (fs, inl TypeError)
  end.

#[export] Instance databento : Databento :=
  {| World := gmap string string; Store := string; Failure := failure;
     from_file := load; to_parquet := export |}.
End Sim.

(** ** An implementation that reads its input

    Files are a finite map from paths to contents.  A load reads the file at
    its path: it fails when there is none, or when the contents do not begin
    with [DBN]; the handle is the contents read.  An export fails under
    [/ro/] and otherwise writes the rendering of the handle at its path,
    over whatever is there. *)

Module Disk.
Inductive failure :=
| TypeError
| NoSuchFile (path : string)
| DecodeError (path : string)
| WriteError (path : string).

Definition read (fs : gmap string string) (path : string) : option string :=
  fs !! path.

Definition render (st : string) : string := "PAR1 " +:+ st.

Definition load (args : list string) (fs : gmap string string)
  : gmap string string * (failure + string) :=
  match args with
  | [path] =>
      match fs !! path with
      | None => (fs, inl (NoSuchFile path))
      | Some c =>
          if starts_with "DBN" c then (fs, inr c)
          else (fs, inl (DecodeError path))
      end
  | _ => (fs, inl TypeError)
  end.

Definition export (st : string) (args : list string) (fs : gmap string string)
  : gmap string string * (failure + unit) :=
  match args with
  | [path] =>
      if starts_with "/ro/" path then (fs, inl (WriteError path))
      else (<[path := render st]> fs, inr tt)
  | _ => (fs, inl TypeError)
  end.

Definition databento : Databento :=
  {| World := gmap string string; Store := string; Failure := failure;
     from_file := load; to_parquet := export |}.
End Disk.

(** ** String facts *)

Lemma string_app_nil (s : string) : "" +:+ s = s.
Proof. reflexivity. Qed.

Lemma string_app_cons (c : ascii) (s1 s2 : string) :
  String c s1 +:+ s2 = String c (s1 +:+ s2).
Proof. reflexivity. Qed.

Lemma string_app_assoc (s1 s2 s3 : string) :
  (s1 +:+ s2) +:+ s3 = s1 +:+ (s2 +:+ s3).
Proof.
  induction s1 as [|c s1 IH]; [done|].
  rewrite !string_app_cons. by f_equal.
Qed.

Lemma string_app_length (s1 s2 : string) :
  String.length (s1 +:+ s2) = (String.length s1 + String.length s2)%nat.
Proof.
  induction s1 as [|c s1 IH]; [done|].
  rewrite string_app_cons. simpl. by f_equal.
Qed.

(** Appending a suffix loses nothing: distinct inputs have distinct outputs. *)
Lemma string_app_inj_r (s1 s2 t : string) :
  s1 +:+ t = s2 +:+ t → s1 = s2.
Proof.
  revert s2. induction s1 as [|c s1 IH]; intros [|d s2] Heq.
  - done.
  - apply (f_equal String.length) in Heq.
    rewrite string_app_nil, string_app_cons in Heq. simpl in Heq.
    rewrite string_app_length in Heq. lia.
  - apply (f_equal String.length) in Heq.
    rewrite string_app_nil, string_app_cons in Heq. simpl in Heq.
    rewrite string_app_length in Heq. lia.
  - rewrite !string_app_cons in Heq. injection Heq as -> Heq.
    f_equal. by apply IH.
Qed.

(** The lines the code builds are the lines the specification quotes. *)
Lemma processing_line_code (f : string) :
  ("Processing " +:+ f) +:+ nl = processing_line f.
Proof. reflexivity. Qed.

Lemma created_line_code (f : string) :
  ("Created " +:+ (f +:+ ".parquet")) +:+ nl = created_line f.
Proof. unfold created_line. by rewrite !string_app_assoc. Qed.

Lemma processing_line_is_processing f : is_processing_line (processing_line f) = true.
Proof. reflexivity. Qed.
Lemma processing_line_not_created f : is_created_line (processing_line f) = false.
Proof. reflexivity. Qed.
Lemma created_line_is_created f : is_created_line (created_line f) = true.
Proof. reflexivity. Qed.
Lemma created_line_not_processing f : is_processing_line (created_line f) = false.
Proof. reflexivity. Qed.

(** A newline is one character, so its occurrences add up over appends. *)
Lemma occurrences_nl_app (s1 s2 : string) :
  occurrences nl (s1 +:+ s2) = (occurrences nl s1 + occurrences nl s2)%nat.
Proof.
  induction s1 as [|c s1 IH]; [done|].
  rewrite string_app_cons. cbn [occurrences starts_with nl].
  rewrite IH. destruct (Ascii.eqb _ c); lia.
Qed.

(** For a filename without a newline each progress line is one line of
    text. *)
Lemma progress_lines_one_line (f : string) :
  occurrences nl f = 0%nat →
  occurrences nl (processing_line f) = 1%nat ∧
  occurrences nl (created_line f) = 1%nat.
Proof.
  intros Hf. unfold processing_line, created_line.
  rewrite !occurrences_nl_app, Hf. split; reflexivity.
Qed.

(** ** Equations of the embedding *)

Section Equations.
Context `{Databento}.

(** One round, by what the package answers. *)
Lemma convert_unfold f w :
  convert f w =
    match from_file [f] w with
    | (w1, inl e) =>
        ([stderr_write (processing_line f); call_from_file [f] (inl e)],
         w1, Abrupt (Raised e))
    | (w1, inr st) =>
        match to_parquet st [f +:+ ".parquet"] w1 with
        | (w2, inl e) =>
            ([stderr_write (processing_line f); call_from_file [f] (inr st);
              call_to_parquet st [f +:+ ".parquet"] (inl e)],
             w2, Abrupt (Raised e))
        | (w2, inr _) => (round f st, w2, Normal tt)
        end
    end.
Proof.
  unfold convert, mbind, Py_bind, bind, sys_stderr_write,
    DBNStore_from_file, DBNStore_to_parquet, round.
  rewrite created_line_code, processing_line_code.
  destruct (from_file [f] w) as [w1 [e|st]]; simpl; [done|].
  destruct (to_parquet st [f +:+ ".parquet"] w1) as [w2 [e|[]]]; done.
Qed.

Lemma for_in_nil {A} (body : A → Py unit) w :
  for_in [] body w = ([], w, Normal tt).
Proof. reflexivity. Qed.

Lemma for_in_cons {A} (x : A) xs (body : A → Py unit) w :
  for_in (x :: xs) body w =
    match body x w with
    | (t1, w1, Normal _) =>
        (t1 ++ events (for_in xs body w1),
         world (for_in xs body w1), outcome (for_in xs body w1))
    | (t1, w1, Abrupt x) => (t1, w1, Abrupt x)
    end.
Proof.
  simpl. unfold mbind, Py_bind, bind.
  destruct (body x w) as [[t1 w1] [a|e]]; [|done].
  by destruct (for_in xs body w1) as [[t2 w2] r].
Qed.

(** With no filename the guard writes the usage line and exits. *)
Lemma main_no_filename argv w :
  drop 1 argv = [] →
  main argv w = ([stderr_write usage], w, Abrupt (SystemExit 1)).
Proof. destruct argv as [|prog [|a rest]]; [done | done | discriminate]. Qed.

(** With one filename or more the guard is passed and the loop runs. *)
Lemma main_some_filename prog a rest w :
  main (prog :: a :: rest) w = for_in (a :: rest) convert w.
Proof.
  unfold main, mbind, Py_bind, bind, mret, Py_ret, ret.
  change (length (prog :: a :: rest) <? 2)%nat with false.
  change (drop 1 (prog :: a :: rest)) with (a :: rest). cbv beta iota.
  by destruct (for_in (a :: rest) convert w) as [[t2 w2] r].
Qed.

Lemma events_run {A} t w (r : completion A) : events (t, w, r) = t.
Proof. reflexivity. Qed.

Lemma world_run {A} t w (r : completion A) : world (t, w, r) = w.
Proof. reflexivity. Qed.

Lemma outcome_run {A} t w (r : completion A) : outcome (t, w, r) = r.
Proof. reflexivity. Qed.

Lemma surjective_run {A} (o : list event * World * completion A) :
  o = (events o, world o, outcome o).
Proof. by destruct o as [[t w] r]. Qed.
End Equations.

(** ** The loop *)

Section Loop.
Context `{Databento}.

Implicit Types (f : string) (fs : list string) (t : list event)
  (w : World) (r : completion unit).

(** Every run of the loop has one of the shapes of [loop_run]. *)
Lemma loop_shape fs w :
  loop_run fs (events (for_in fs convert w)) (outcome (for_in fs convert w)).
Proof.
  revert w. induction fs as [|f fs IH]; intros w.
  - constructor.
  - rewrite for_in_cons, convert_unfold.
    destruct (from_file [f] w) as [w1 [e|st]]; [apply loop_load_raises|].
    destruct (to_parquet st [f +:+ ".parquet"] w1) as [w2 [e|[]]];
      [apply loop_export_raises|].
    apply loop_round, IH.
Qed.

(** The loop threads the world through the package exactly as
    [conversions] does, and completes as [conversions] answers. *)
Lemma loop_world fs w :
  world (for_in fs convert w) = (conversions fs w).1.
Proof.
  revert w. induction fs as [|f fs IH]; intros w; [done|].
  rewrite for_in_cons, convert_unfold. simpl. unfold conversion.
  destruct (from_file [f] w) as [w1 [e|st]]; [done|].
  destruct (to_parquet st [f +:+ ".parquet"] w1) as [w2 [e|[]]]; [done|].
  apply IH.
Qed.

Lemma loop_outcome fs w :
  outcome (for_in fs convert w) =
    match (conversions fs w).2 with
    | inr _ => Normal tt
    | inl e => Abrupt (Raised e)
    end.
Proof.
  revert w. induction fs as [|f fs IH]; intros w; [done|].
  rewrite for_in_cons, convert_unfold. simpl. unfold conversion.
  destruct (from_file [f] w) as [w1 [e|st]]; [done|].
  destruct (to_parquet st [f +:+ ".parquet"] w1) as [w2 [e|[]]]; [done|].
  apply IH.
Qed.

(** A prefix of valid inputs is converted in full rounds; the loop then
    goes on with the rest from the world they leave. *)
Lemma loop_app pre post w w1 :
  converts_all pre w w1 →
  ∃ sts, length sts = length pre ∧
    for_in (pre ++ post) convert w =
      (mjoin (zip_with round pre sts) ++ events (for_in post convert w1),
       world (for_in post convert w1), outcome (for_in post convert w1)).
Proof.
  unfold converts_all. revert w.
  induction pre as [|f pre IH]; intros w Hall; simpl in Hall.
  - injection Hall as ->. exists []. split; [done|]. apply surjective_run.
  - unfold conversion in Hall. simpl app. rewrite for_in_cons, convert_unfold.
    destruct (from_file [f] w) as [wa [e|st]]; [done|].
    destruct (to_parquet st [f +:+ ".parquet"] wa) as [wb [e|[]]]; [done|].
    destruct (IH wb Hall) as (sts & Hlen & ->).
    exists (st :: sts). split; [simpl; by f_equal | done].
Qed.

(** *** Consequences of the shape *)

Lemma steps_length fs : length (fs ≫= steps) = (4 * length fs)%nat.
Proof.
  induction fs as [|f fs IH]; [done|].
  rewrite bind_cons, length_app, IH. simpl. lia.
Qed.

Lemma loop_run_prefix fs t r :
  loop_run fs t r → action_of <$> t `prefix_of` fs ≫= steps.
Proof.
  induction 1 as [|f fs st t r _ IH|f fs e|f fs st e].
  - done.
  - rewrite fmap_app, bind_cons. by apply prefix_app.
  - rewrite bind_cons. do 2 apply prefix_cons. apply prefix_nil.
  - rewrite bind_cons. do 3 apply prefix_cons. apply prefix_nil.
Qed.

Lemma loop_run_length fs t r :
  loop_run fs t r →
  match r with
  | Normal _ => length t = (4 * length fs)%nat
  | Abrupt _ => (length t < 4 * length fs)%nat
  end.
Proof.
  induction 1 as [|f fs st t r _ IH|f fs e|f fs st e]; simpl; try lia.
  destruct r; lia.
Qed.

Lemma loop_run_normal fs t r :
  loop_run fs t r → r = Normal tt →
  ∃ sts, length sts = length fs ∧ t = mjoin (zip_with round fs sts).
Proof.
  induction 1 as [|f fs st t r _ IH|f fs e|f fs st e]; intros Hr; try done.
  - by exists [].
  - destruct (IH Hr) as (sts & Hlen & ->).
    exists (st :: sts). split; [simpl; by f_equal | done].
Qed.

Lemma rounds_raise_nothing fs (sts : list Store) :
  existsb raised (mjoin (zip_with round fs sts)) = false.
Proof.
  revert sts. induction fs as [|f fs IH]; intros [|st sts]; simpl; auto.
Qed.

Lemma rounds_actions fs (sts : list Store) :
  length sts = length fs →
  action_of <$> mjoin (zip_with round fs sts) = fs ≫= steps.
Proof.
  revert sts. induction fs as [|f fs IH]; intros [|st sts] Hlen; try done.
  injection Hlen as Hlen.
  change (mjoin (zip_with round (f :: fs) (st :: sts)))
    with (round f st ++ mjoin (zip_with round fs sts)).
  by rewrite bind_cons, fmap_app, IH.
Qed.

(** The loop returns exactly when the package raised nothing. *)
Lemma loop_run_raised fs t r :
  loop_run fs t r → (r = Normal tt ↔ existsb raised t = false).
Proof.
  induction 1 as [|f fs st t r _ IH|f fs e|f fs st e]; simpl; try done.
Qed.

End Loop.

(** ** What a run of full rounds shows *)

Section Rounds.
Context `{Databento}.

Implicit Types (f : string) (fs : list string) (sts : list Store).

Lemma rounds_cons f fs st sts :
  mjoin (zip_with round (f :: fs) (st :: sts)) =
    round f st ++ mjoin (zip_with round fs sts).
Proof. reflexivity. Qed.

Lemma rounds_stderr fs sts :
  length sts = length fs →
  stderr (mjoin (zip_with round fs sts)) = fs ≫= progress_lines.
Proof.
  revert sts. induction fs as [|f fs IH]; intros [|st sts] Hlen; try done.
  injection Hlen as Hlen. rewrite rounds_cons, bind_cons.
  unfold stderr in *. rewrite omap_app, IH by done. done.
Qed.

Lemma rounds_loads fs sts :
  length sts = length fs →
  loads (mjoin (zip_with round fs sts)) = load_args <$> fs.
Proof.
  revert sts. induction fs as [|f fs IH]; intros [|st sts] Hlen; try done.
  injection Hlen as Hlen. rewrite rounds_cons, fmap_cons.
  unfold loads in *. rewrite omap_app, IH by done. done.
Qed.

Lemma rounds_exports fs sts :
  length sts = length fs →
  exports (mjoin (zip_with round fs sts)) = export_args <$> fs.
Proof.
  revert sts. induction fs as [|f fs IH]; intros [|st sts] Hlen; try done.
  injection Hlen as Hlen. rewrite rounds_cons, fmap_cons.
  unfold exports in *. rewrite omap_app, IH by done. done.
Qed.

Lemma rounds_created fs sts :
  length sts = length fs →
  created (mjoin (zip_with round fs sts)) = output_name <$> fs.
Proof.
  revert sts. induction fs as [|f fs IH]; intros [|st sts] Hlen; try done.
  injection Hlen as Hlen. rewrite rounds_cons, fmap_cons.
  unfold created in *. rewrite omap_app, IH by done. done.
Qed.

(** An output name is never the name of its own input. *)
Lemma output_name_ne f : output_name f ≠ f.
Proof.
  intros Heq. apply (f_equal String.length) in Heq.
  unfold output_name in Heq. rewrite string_app_length in Heq.
  simpl in Heq. lia.
Qed.

(** The output name determines the input name. *)
Lemma output_name_inj f g : output_name f = output_name g → f = g.
Proof. apply string_app_inj_r. Qed.

Lemma output_name_elem f fs : output_name f ∈ output_name <$> fs → f ∈ fs.
Proof.
  intros (g & Heq & Hin)%list_elem_of_fmap.
  by rewrite (output_name_inj _ _ Heq).
Qed.

(** How a failing input ends the loop. *)
Lemma loop_fails bad post w e w2 :
  fails bad w e w2 →
  ∃ t, for_in (bad :: post) convert w = (t, w2, Abrupt (Raised e)) ∧
    stderr t = [processing_line bad] ∧ loads t = [load_args bad] ∧
    created t = [] ∧ exports t `prefix_of` [export_args bad].
Proof.
  unfold fails, conversion. intros Hfail.
  rewrite for_in_cons, convert_unfold.
  destruct (from_file [bad] w) as [w1 [e1|st]].
  - injection Hfail as -> ->. eexists. split; [done|].
    repeat split; try done. apply prefix_nil.
  - rewrite Hfail. eexists. split; [done|]. repeat split; done.
Qed.

Lemma fails_to_decode_fails f w e w' :
  fails_to_decode f w e w' → fails f w e w'.
Proof. unfold fails_to_decode, fails, conversion. by intros ->. Qed.

(** A failing batch has a first failing input. *)
Lemma conversions_first_failure fs w w' e :
  conversions fs w = (w', inl e) →
  ∃ pre bad post w1,
    fs = pre ++ bad :: post ∧ converts_all pre w w1 ∧ fails bad w1 e w'.
Proof.
  unfold converts_all, fails. revert w.
  induction fs as [|f fs IH]; intros w Hc; [done|].
  simpl in Hc. destruct (conversion f w) as [w1 [e1|[]]] eqn:Hf.
  - injection Hc as -> ->. by exists [], f, fs, w.
  - destruct (IH _ Hc) as (pre & bad & post & wa & -> & Hpre & Hbad).
    exists (f :: pre), bad, post, wa. repeat split; try done.
    simpl. by rewrite Hf.
Qed.
End Rounds.

(** ** Whole batches *)

Section Batches.
Context `{Databento}.

Lemma conversions_app_fails pre bad post w w1 e w2 :
  converts_all pre w w1 → fails bad w1 e w2 →
  conversions (pre ++ bad :: post) w = (w2, inl e).
Proof.
  unfold converts_all, fails. revert w.
  induction pre as [|f pre IH]; intros w Hpre Hbad; simpl in *.
  - injection Hpre as ->. by rewrite Hbad.
  - destruct (conversion f w) as [wa [e1|[]]]; [done|]. by apply IH.
Qed.

Lemma converts_all_cons f fs w w1 w2 :
  converts f w w1 → converts_all fs w1 w2 → converts_all (f :: fs) w w2.
Proof. unfold converts, converts_all. simpl. by intros ->. Qed.

Lemma converts_all_nil w : converts_all [] w w.
Proof. reflexivity. Qed.

(** A batch of valid inputs, run by [main]. *)
Lemma main_converts_all prog fs w w' :
  fs ≠ [] → converts_all fs w w' →
  ∃ sts, length sts = length fs ∧
    main (prog :: fs) w = (mjoin (zip_with round fs sts), w', Normal tt).
Proof.
  intros Hne Hall. destruct fs as [|a rest]; [done|].
  rewrite main_some_filename.
  destruct (loop_app (a :: rest) [] w w' Hall) as (sts & Hlen & Hrun).
  rewrite !app_nil_r in Hrun. by exists sts.
Qed.

(** One valid input, run by [main]. *)
Lemma main_single prog f w wa st w1 :
  from_file [f] w = (wa, inr st) →
  to_parquet st [output_name f] wa = (w1, inr tt) →
  main [prog; f] w = (round f st, w1, Normal tt).
Proof.
  intros Hl Hx. rewrite main_some_filename, for_in_cons, convert_unfold, Hl.
  unfold output_name in Hx. rewrite Hx, for_in_nil, events_run.
  by rewrite app_nil_r.
Qed.
End Batches.

(** ** Order of events *)

Section Order.
Context `{Databento}.

(** In a loop's events every load has the progress line of its filename
    immediately before it. *)
Lemma loop_run_load_preceded fs t r :
  loop_run fs t r →
  ∀ t1 args res t2,
    t = t1 ++ call_from_file args res :: t2 →
    ∃ t0 f, args = load_args f ∧
      t1 = t0 ++ [stderr_write (processing_line f)].
Proof.
  induction 1 as [|f fs st t r _ IH|f fs e|f fs st e];
    intros t1 args res t2 Heq.
  - by destruct t1.
  - destruct t1 as [|x1 [|x2 [|x3 [|x4 t1]]]]; simplify_eq/=.
    + by exists [], f.
    + destruct (IH _ _ _ _ eq_refl) as (t0 & g & -> & ->).
      by exists (round f st ++ t0), g.
  - destruct t1 as [|x1 [|x2 [|x3 t1]]]; simplify_eq/=.
    by exists [], f.
  - destruct t1 as [|x1 [|x2 [|x3 [|x4 t1]]]]; simplify_eq/=.
    by exists [], f.
Qed.

Lemma usage_run_has_no_load {A} w (r : completion A) t1 args res t2 :
  events ([stderr_write usage], w, r) = t1 ++ call_from_file args res :: t2 →
  ∃ t0 f, args = [f] ∧ t1 = t0 ++ [stderr_write (processing_line f)].
Proof.
  rewrite events_run. intros Heq.
  destruct t1 as [|x [|y t1]]; discriminate Heq.
Qed.

Lemma count_lines_cons p x l :
  count_lines p (x :: l) = ((if p x then 1 else 0) + count_lines p l)%nat.
Proof. unfold count_lines. simpl. by destruct (p x). Qed.

Lemma stderr_round f st t :
  stderr (round f st ++ t) = processing_line f :: created_line f :: stderr t.
Proof. reflexivity. Qed.

(** Processing lines and Created lines pair up, except for the round an
    exception cut short. *)
Lemma loop_run_counts fs t r :
  loop_run fs t r →
  count_lines is_processing_line (stderr t) =
    (count_lines is_created_line (stderr t) +
       match r with Normal _ => 0 | Abrupt _ => 1 end)%nat.
Proof.
  induction 1 as [|f fs st t r _ IH|f fs e|f fs st e].
  - done.
  - rewrite stderr_round, !count_lines_cons.
    rewrite processing_line_is_processing, processing_line_not_created,
      created_line_is_created, created_line_not_processing.
    lia.
  - change (stderr _) with [processing_line f].
    by rewrite !count_lines_cons,
      processing_line_is_processing, processing_line_not_created.
  - change (stderr _) with [processing_line f].
    by rewrite !count_lines_cons,
      processing_line_is_processing, processing_line_not_created.
Qed.

(** The run of a batch whose first failing input is [bad]. *)
Lemma main_first_failure prog pre bad post w w1 e w2 :
  converts_all pre w w1 → fails bad w1 e w2 →
  ∃ sts t, length sts = length pre ∧
    main (prog :: pre ++ bad :: post) w =
      (mjoin (zip_with round pre sts) ++ t, w2, Abrupt (Raised e)) ∧
    stderr t = [processing_line bad] ∧ loads t = [load_args bad] ∧
    created t = [] ∧ exports t `prefix_of` [export_args bad].
Proof.
  intros Hpre Hbad.
  assert (∃ x l, pre ++ bad :: post = x :: l) as (x & l & Hxl).
  { destruct pre; simpl; eauto. }
  rewrite Hxl, main_some_filename, <- Hxl.
  destruct (loop_app pre (bad :: post) w w1 Hpre) as (sts & Hlen & ->).
  destruct (loop_fails bad post w1 e w2 Hbad) as (t & -> & Ht).
  exists sts, t. by rewrite events_run, world_run, outcome_run.
Qed.

(** The loads and exports of a loop, whatever its outcome. *)
Lemma loop_run_calls fs t r :
  loop_run fs t r →
  loads t `prefix_of` load_args <$> fs ∧
  exports t `prefix_of` export_args <$> fs ∧
  (r = Normal tt →
     loads t = load_args <$> fs ∧ exports t = export_args <$> fs).
Proof.
  induction 1 as [|f fs st t r _ (IHl & IHe & IHn)|f fs e|f fs st e].
  - done.
  - change (loads (round f st ++ t)) with (load_args f :: loads t).
    change (exports (round f st ++ t)) with (export_args f :: exports t).
    rewrite !fmap_cons. split; [by apply prefix_cons|].
    split; [by apply prefix_cons|].
    intros Hr. destruct (IHn Hr) as [-> ->]. done.
  - rewrite fmap_cons. split; [apply prefix_cons, prefix_nil|].
    split; [apply prefix_nil | done].
  - rewrite !fmap_cons. split; [apply prefix_cons, prefix_nil|].
    split; [apply prefix_cons, prefix_nil | done].
Qed.

Lemma loop_run_first f fs t r :
  loop_run (f :: fs) t r →
  ∃ res t', t = stderr_write (processing_line f)
                :: call_from_file (load_args f) res :: t'.
Proof. inversion 1; subst; unfold round; simpl; eauto. Qed.

Lemma loop_run_no_usage fs t r :
  loop_run fs t r → stderr_write usage ∉ t.
Proof.
  induction 1 as [|f fs st t r _ IH|f fs e|f fs st e].
  - apply not_elem_of_nil.
  - unfold round. intros Hin. apply elem_of_app in Hin as [Hin|Hin]; [|done].
    repeat (apply elem_of_cons in Hin as [Hin|Hin]; [discriminate Hin|]).
    by apply elem_of_nil in Hin.
  - intros Hin.
    repeat (apply elem_of_cons in Hin as [Hin|Hin]; [discriminate Hin|]).
    by apply elem_of_nil in Hin.
  - intros Hin.
    repeat (apply elem_of_cons in Hin as [Hin|Hin]; [discriminate Hin|]).
    by apply elem_of_nil in Hin.
Qed.
End Order.

(** ** The calls really made *)

Section Calls.
Context `{Databento}.

(** The events of a loop are the calls it made, and its world the one they
    left. *)
Lemma loop_performed fs w :
  performed (events (for_in fs convert w)) w (world (for_in fs convert w)).
Proof.
  revert w. induction fs as [|f fs IH]; intros w; [done|].
  rewrite for_in_cons, convert_unfold.
  destruct (from_file [f] w) as [w1 [e|st]] eqn:Hl.
  - rewrite events_run, world_run. simpl. by exists w1.
  - destruct (to_parquet st [f +:+ ".parquet"] w1) as [w2 [e|[]]] eqn:Hx.
    + rewrite events_run, world_run. simpl.
      exists w1. split; [done|]. by exists w2.
    + rewrite events_run, world_run. simpl.
      exists w1. split; [done|]. exists w2. split; [done|]. apply IH.
Qed.

(** The rounds of inputs that convert, replayed. *)
Lemma loop_app_performed pre post w w1 :
  converts_all pre w w1 →
  ∃ t, loads t = load_args <$> pre ∧ exports t = export_args <$> pre ∧
    performed t w w1 ∧
    for_in (pre ++ post) convert w =
      (t ++ events (for_in post convert w1),
       world (for_in post convert w1), outcome (for_in post convert w1)).
Proof.
  unfold converts_all. revert w.
  induction pre as [|f pre IH]; intros w Hall; simpl in Hall.
  - injection Hall as ->. exists []. repeat split; try done.
    apply surjective_run.
  - unfold conversion in Hall. rewrite <- app_comm_cons.
    rewrite for_in_cons, convert_unfold.
    destruct (from_file [f] w) as [wa [e|st]] eqn:Hl; [done|].
    destruct (to_parquet st [f +:+ ".parquet"] wa) as [wb [e|[]]] eqn:Hx;
      [done|].
    destruct (IH wb Hall) as (t & Hloads & Hexports & Hp & ->).
    exists (round f st ++ t).
    change (loads (round f st ++ t)) with (load_args f :: loads t).
    change (exports (round f st ++ t)) with (export_args f :: exports t).
    rewrite Hloads, Hexports, !fmap_cons, !events_run, world_run, outcome_run.
    split; [done|]. split; [done|]. split.
    + simpl. exists wa. split; [done|]. by exists wb.
    + by rewrite app_assoc.
Qed.

(** The first two events of a loop on a non-empty list, and the third when
    the load returned. *)
Lemma loop_head f post w :
  ∃ t', events (for_in (f :: post) convert w) =
    stderr_write (processing_line f)
      :: call_from_file [f] (from_file [f] w).2 :: t' ∧
    ∀ w2 st, from_file [f] w = (w2, inr st) →
      ∃ t'', t' = call_to_parquet st [f +:+ ".parquet"]
                    (to_parquet st [f +:+ ".parquet"] w2).2 :: t''.
Proof.
  rewrite for_in_cons, convert_unfold.
  destruct (from_file [f] w) as [w1 [e|st]] eqn:Hl.
  - rewrite events_run. eexists. split; [done|]. intros ? ? [=].
  - destruct (to_parquet st [f +:+ ".parquet"] w1) as [w2 [e|[]]] eqn:Hx.
    + rewrite events_run. eexists. split; [done|].
      intros ? ? [= <- <-]. rewrite Hx. by eexists.
    + rewrite events_run. eexists. split; [done|].
      intros ? ? [= <- <-]. rewrite Hx. by eexists.
Qed.
End Calls.

(** The file-reading implementation meets the assumptions on reruns. *)
Lemma disk_load_answer path (fs fs' : gmap string string) :
  fs !! path = fs' !! path →
  (Disk.load [path] fs).2 = (Disk.load [path] fs').2.
Proof.
  intros Hread. unfold Disk.load. rewrite Hread.
  destruct (fs' !! path) as [c|]; [|done].
  by destruct (starts_with "DBN" c).
Qed.

Lemma disk_load_world path (fs : gmap string string) :
  (Disk.load [path] fs).1 = fs.
Proof.
  unfold Disk.load. destruct (fs !! path) as [c|]; [|done].
  by destruct (starts_with "DBN" c).
Qed.

Lemma disk_export_answer st path (fs fs' : gmap string string) :
  (Disk.export st [path] fs).2 = (Disk.export st [path] fs').2.
Proof. unfold Disk.export. by destruct (starts_with "/ro/" path). Qed.

Lemma disk_export_elsewhere st path (fs : gmap string string) q :
  q ≠ path → (Disk.export st [path] fs).1 !! q = fs !! q.
Proof.
  intros Hne. unfold Disk.export.
  destruct (starts_with "/ro/" path); [done|].
  cbn [fst]. by rewrite lookup_insert_ne.
Qed.

Lemma disk_export_written st path (fs fs' : gmap string string) :
  Disk.export st [path] fs = (fs', inr tt) →
  fs' !! path = Some (Disk.render st).
Proof.
  unfold Disk.export. destruct (starts_with "/ro/" path); [done|].
  intros [= <-]. apply lookup_insert_eq.
Qed.

Lemma disk_load_reads_its_input :
  @load_reads_its_input Disk.databento _ Disk.read.
Proof.
  split.
  - intros path w w'. apply disk_load_answer.
  - intros path w q.
    exact (f_equal (λ fs, Disk.read fs q) (disk_load_world path w)).
Qed.

Lemma disk_export_writes_its_output :
  @export_writes_its_output Disk.databento _ Disk.read Disk.render.
Proof.
  split; [|split].
  - intros st path w w' _. apply disk_export_answer.
  - intros st path w q. apply disk_export_elsewhere.
  - intros st path w w'. apply disk_export_written.
Qed.

(** ** The program run on the small implementation *)

Example sim_two_inputs :
  let o := @main Sim.databento ["dbn_to_parquet.py"; "a.bin"; "b.bin"] ∅ in
  action_of <$> events o =
    [ Announce ("Processing a.bin" +:+ nl); Load ["a.bin"];
      Export ["a.bin.parquet"]; Announce ("Created a.bin.parquet" +:+ nl);
      Announce ("Processing b.bin" +:+ nl); Load ["b.bin"];
      Export ["b.bin.parquet"]; Announce ("Created b.bin.parquet" +:+ nl) ] ∧
  world o = <[ "b.bin.parquet" := "PAR1 records of b.bin" ]>
              {[ "a.bin.parquet" := "PAR1 records of a.bin" ]} ∧
  outcome o = Normal tt ∧ exit_status (outcome o) = 0.
Proof. repeat split; reflexivity. Qed.

Example sim_bad_in_the_middle :
  let o := @main Sim.databento ["dbn_to_parquet.py"; "a"; "bad"; "c"] ∅ in
  action_of <$> events o =
    [ Announce ("Processing a" +:+ nl); Load ["a"];
      Export ["a.parquet"]; Announce ("Created a.parquet" +:+ nl);
      Announce ("Processing bad" +:+ nl); Load ["bad"] ] ∧
  world o = {[ "a.parquet" := "PAR1 records of a" ]} ∧
  outcome o = Abrupt (Raised (Sim.DecodeError "bad")) ∧
  exit_status (outcome o) = 1.
Proof. repeat split; reflexivity. Qed.

Example sim_unwritable_output :
  let o := @main Sim.databento ["dbn_to_parquet.py"; "/ro/x"; "y"] ∅ in
  action_of <$> events o =
    [ Announce ("Processing /ro/x" +:+ nl); Load ["/ro/x"];
      Export ["/ro/x.parquet"] ] ∧
  world o = ∅ ∧
  outcome o = Abrupt (Raised (Sim.WriteError "/ro/x.parquet")) ∧
  exit_status (outcome o) = 1.
Proof. repeat split; reflexivity. Qed.

Example sim_no_filename :
  let o := @main Sim.databento ["dbn_to_parquet.py"] ∅ in
  action_of <$> events o =
    [ Announce ("Usage: dbn_to_parquet.py <filename>" +:+ nl) ] ∧
  world o = ∅ ∧ outcome o = Abrupt (SystemExit 1) ∧
  exit_status (outcome o) = 1.
Proof. repeat split; reflexivity. Qed.

Example sim_empty_argv :
  let o := @main Sim.databento [] ∅ in
  action_of <$> events o =
    [ Announce ("Usage: dbn_to_parquet.py <filename>" +:+ nl) ] ∧
  world o = ∅ ∧ outcome o = Abrupt (SystemExit 1).
Proof. repeat split; reflexivity. Qed.

Example sim_dash_dash_help :
  let o := @main Sim.databento ["dbn_to_parquet.py"; "--help"] ∅ in
  action_of <$> events o =
    [ Announce ("Processing --help" +:+ nl); Load ["--help"];
      Export ["--help.parquet"]; Announce ("Created --help.parquet" +:+ nl) ] ∧
  world o = {[ "--help.parquet" := "PAR1 records of --help" ]}.
Proof. repeat split; reflexivity. Qed.

(** ** Properties of the program *)

(** C1: with one filename or more, the program performs, filename by
    filename in argument order, the sequence: progress line, load of the
    filename, export to the filename with [.parquet] appended, completion
    line naming that output.  The actions of a run are always an initial
    segment of that sequence; they are the whole of it exactly when the run
    returns, which is exactly when the package raised nothing; and every export
    is then applied to the handle the load of the same round returned.  The
    loads and exports recorded are calls really made: each is what the
    package answers in the world the calls before it left, the run leaves the
    world the last of them left, and it returns exactly when the package
    converts every filename in turn. *)
Theorem main_processes_each_filename_in_order `{Databento} prog a rest w :
  let o := main (prog :: a :: rest) w in
  action_of <$> events o `prefix_of` (a :: rest) ≫= steps ∧
  (outcome o = Normal tt ↔ action_of <$> events o = (a :: rest) ≫= steps) ∧
  (outcome o = Normal tt ↔ existsb raised (events o) = false) ∧
  (outcome o = Normal tt ↔
     ∃ sts, length sts = length (a :: rest) ∧
       events o = mjoin (zip_with round (a :: rest) sts)) ∧
  performed (events o) w (world o) ∧
  (outcome o = Normal tt ↔ converts_all (a :: rest) w (world o)).
Proof.
  intros o. subst o. rewrite main_some_filename.
  pose proof (loop_shape (a :: rest) w) as Hrun.
  pose proof (loop_performed (a :: rest) w) as Hperf.
  pose proof (loop_world (a :: rest) w) as Hworld.
  pose proof (loop_outcome (a :: rest) w) as Hout.
  set (o := for_in (a :: rest) convert w) in *.
  split; [by eapply loop_run_prefix|].
  split; [|split; [|split; [|split]]].
  - split.
    + intros Hr. destruct (loop_run_normal _ _ _ Hrun Hr) as (sts & Hlen & ->).
      by apply rounds_actions.
    + intros Hact. pose proof (loop_run_length _ _ _ Hrun) as Hlen.
      apply (f_equal length) in Hact.
      rewrite length_fmap, steps_length in Hact.
      destruct (outcome o) as [[]|x]; [done | lia].
  - by eapply loop_run_raised.
  - split.
    + intros Hr. by eapply loop_run_normal.
    + intros (sts & _ & Hev). eapply loop_run_raised; [done|].
      rewrite Hev. apply rounds_raise_nothing.
  - exact Hperf.
  - unfold converts_all. rewrite Hworld, Hout.
    destruct (conversions (a :: rest) w) as [w' [e|[]]]; cbn [fst snd].
    + split; [done | intros [=]].
    + done.
Qed.

(** C2: with no filename argument the program writes the usage message to
    standard error and exits with status 1; it calls neither operation of the
    package, creates no file and leaves the world as it found it. *)
Theorem main_without_filenames `{Databento} argv w :
  drop 1 argv = [] →
  let o := main argv w in
  stderr (events o) = [usage] ∧
  outcome o = Abrupt (SystemExit 1) ∧
  exit_status (outcome o) = 1 ∧ exit_status (outcome o) ≠ 0 ∧
  loads (events o) = [] ∧ exports (events o) = [] ∧
  created (events o) = [] ∧ world o = w.
Proof. intros Hno o. subst o. by rewrite main_no_filename. Qed.

Lemma main_without_filenames_witness :
  drop 1 ["dbn_to_parquet.py"] = [] ∧
  stderr (events (@main Sim.databento ["dbn_to_parquet.py"] (∅ : gmap string string)))
    = [usage] ∧
  exit_status (outcome (@main Sim.databento ["dbn_to_parquet.py"] (∅ : gmap string string)))
    = 1.
Proof.
  split; [reflexivity|].
  pose proof (@main_without_filenames Sim.databento ["dbn_to_parquet.py"] ∅
                eq_refl) as Hw.
  cbv zeta in Hw. destruct Hw as (Herr & _ & Hstatus & _).
  split; [exact Herr | exact Hstatus].
Defined.

(** C3: a failure of the load or of the export is not caught or changed.
    When the inputs [pre] convert and the next input [bad] fails with [e], the
    run ends with that very [e] uncaught and a non-zero status, in the world
    the failing call left; the outputs created are those of [pre], one each;
    the package was asked to load [pre] and [bad] and nothing else; and no
    input outside [pre] has an output (so for the list a, bad, c the output of
    a exists and that of c does not). *)
Theorem main_aborts_at_first_failure `{Databento} prog pre bad post w w1 e w2 :
  converts_all pre w w1 →
  fails bad w1 e w2 →
  let o := main (prog :: pre ++ bad :: post) w in
  outcome o = Abrupt (Raised e) ∧
  exit_status (outcome o) ≠ 0 ∧
  world o = w2 ∧
  created (events o) = output_name <$> pre ∧
  loads (events o) = load_args <$> (pre ++ [bad]) ∧
  exports (events o) `prefix_of` export_args <$> (pre ++ [bad]) ∧
  stderr (events o) = (pre ≫= progress_lines) ++ [processing_line bad] ∧
  (∀ c, c ∉ pre → output_name c ∉ created (events o)).
Proof.
  intros Hpre Hbad o.
  destruct (main_first_failure prog pre bad post w w1 e w2 Hpre Hbad)
    as (sts & t & Hlen & Hrun & Hstderr & Hloads & Hcreated & Hexports).
  subst o. rewrite Hrun, outcome_run, world_run, events_run.
  assert (created (mjoin (zip_with round pre sts) ++ t) = output_name <$> pre)
    as Hcr.
  { unfold created in *. rewrite omap_app, Hcreated, app_nil_r.
    by apply rounds_created. }
  repeat split; try done.
  - unfold loads in *. rewrite omap_app, Hloads, fmap_app.
    f_equal. by apply rounds_loads.
  - unfold exports in *. rewrite omap_app, fmap_app.
    pose proof (rounds_exports pre sts Hlen) as Hex. unfold exports in Hex.
    rewrite Hex. by apply prefix_app.
  - unfold stderr in *. rewrite omap_app, Hstderr.
    f_equal. by apply rounds_stderr.
  - intros c Hc. rewrite Hcr. intros Hin. by apply Hc, output_name_elem.
Qed.

Lemma main_aborts_at_first_failure_witness :
  @converts_all Sim.databento ["a"] (∅ : gmap string string)
    {[ "a.parquet" := "PAR1 records of a" ]} ∧
  @fails Sim.databento "bad" ({[ "a.parquet" := "PAR1 records of a" ]} : gmap string string)
    (Sim.DecodeError "bad") {[ "a.parquet" := "PAR1 records of a" ]} ∧
  outcome (@main Sim.databento ["dbn_to_parquet.py"; "a"; "bad"; "c"] (∅ : gmap string string))
    = Abrupt (@Raised Sim.databento (Sim.DecodeError "bad")) ∧
  created (events (@main Sim.databento ["dbn_to_parquet.py"; "a"; "bad"; "c"]
                     (∅ : gmap string string))) = ["a.parquet"] ∧
  "c.parquet" ∉ created (events (@main Sim.databento ["dbn_to_parquet.py"; "a"; "bad"; "c"]
                                   (∅ : gmap string string))).
Proof.
  assert (@converts_all Sim.databento ["a"] (∅ : gmap string string)
            {[ "a.parquet" := "PAR1 records of a" ]}) as Hpre
    by reflexivity.
  assert (@fails Sim.databento "bad" ({[ "a.parquet" := "PAR1 records of a" ]} : gmap string string)
            (Sim.DecodeError "bad") {[ "a.parquet" := "PAR1 records of a" ]})
    as Hbad by reflexivity.
  pose proof (@main_aborts_at_first_failure Sim.databento "dbn_to_parquet.py"
                ["a"] "bad" ["c"] _ _ _ _ Hpre Hbad) as Hw.
  cbv zeta in Hw. destruct Hw as (Hout & _ & _ & Hcr & _ & _ & _ & Hnot).
  split; [exact Hpre|]. split; [exact Hbad|].
  split; [exact Hout|]. split; [exact Hcr|].
  apply (Hnot "c"). intros Hin%list_elem_of_singleton. discriminate.
Defined.

(** C4: with one filename or more, the exit status is zero exactly when every
    filename converts; it is non-zero exactly when some filename fails after
    those before it converted, and the run then ends with status 1 on the
    failure of that first failing filename. *)
Theorem exit_status_reflects_first_failure `{Databento} prog a rest w :
  let o := main (prog :: a :: rest) w in
  (exit_status (outcome o) = 0 ↔ ∃ w', converts_all (a :: rest) w w') ∧
  (exit_status (outcome o) ≠ 0 ↔
     ∃ pre bad post w1 e w2,
       a :: rest = pre ++ bad :: post ∧
       converts_all pre w w1 ∧ fails bad w1 e w2) ∧
  (∀ pre bad post w1 e w2,
     a :: rest = pre ++ bad :: post →
     converts_all pre w w1 → fails bad w1 e w2 →
     outcome o = Abrupt (Raised e) ∧ exit_status (outcome o) = 1).
Proof.
  intros o. subst o. rewrite main_some_filename, loop_outcome.
  split; [|split].
  - split.
    + destruct (conversions (a :: rest) w) as [w' [e|[]]] eqn:Hc; [done|].
      intros _. by exists w'.
    + intros (w' & Hall). unfold converts_all in Hall. by rewrite Hall.
  - split.
    + destruct (conversions (a :: rest) w) as [w' [e|[]]] eqn:Hc; [|done].
      intros _.
      destruct (conversions_first_failure _ _ _ _ Hc)
        as (pre & bad & post & w1 & Hsplit & Hpre & Hbad).
      by exists pre, bad, post, w1, e, w'.
    + intros (pre & bad & post & w1 & e & w2 & -> & Hpre & Hbad).
      by rewrite (conversions_app_fails _ _ post _ _ _ _ Hpre Hbad).
  - intros pre bad post w1 e w2 -> Hpre Hbad.
    by rewrite (conversions_app_fails _ _ post _ _ _ _ Hpre Hbad).
Qed.

(** C5: when [a] and then [b] are valid inputs, the run returns after two
    full rounds; [a]'s output and [b]'s output are created in that order and
    standard error receives exactly four lines: processing a, created a,
    processing b, created b, not the two processing lines first. *)
Theorem two_valid_inputs_interleave `{Databento} prog a b w w1 w2 :
  converts a w w1 →
  converts b w1 w2 →
  let o := main [prog; a; b] w in
  outcome o = Normal tt ∧
  world o = w2 ∧
  (∃ sta stb, events o = round a sta ++ round b stb) ∧
  created (events o) = [output_name a; output_name b] ∧
  stderr (events o) =
    [processing_line a; created_line a; processing_line b; created_line b] ∧
  stderr (events o) ≠
    [processing_line a; processing_line b; created_line a; created_line b].
Proof.
  intros Ha Hb o.
  assert (converts_all [a; b] w w2) as Hall.
  { eapply converts_all_cons; [done|].
    eapply converts_all_cons; [done|]. apply converts_all_nil. }
  destruct (main_converts_all prog [a; b] w w2) as (sts & Hlen & Hrun);
    [done | done |].
  destruct sts as [|sta [|stb [|? ?]]]; try done.
  subst o. rewrite Hrun. unfold events, world, outcome. simpl.
  repeat split; try done.
  by exists sta, stb.
Qed.

Lemma two_valid_inputs_interleave_witness :
  @converts Sim.databento "a.bin" ∅
    {[ "a.bin.parquet" := "PAR1 records of a.bin" ]} ∧
  @converts Sim.databento "b.bin"
    {[ "a.bin.parquet" := "PAR1 records of a.bin" ]}
    (<[ "b.bin.parquet" := "PAR1 records of b.bin" ]>
       {[ "a.bin.parquet" := "PAR1 records of a.bin" ]}) ∧
  created (events (@main Sim.databento ["dbn_to_parquet.py"; "a.bin"; "b.bin"] ∅))
    = ["a.bin.parquet"; "b.bin.parquet"] ∧
  stderr (events (@main Sim.databento ["dbn_to_parquet.py"; "a.bin"; "b.bin"] ∅))
    = [ "Processing a.bin" +:+ nl; "Created a.bin.parquet" +:+ nl;
        "Processing b.bin" +:+ nl; "Created b.bin.parquet" +:+ nl ].
Proof.
  assert (@converts Sim.databento "a.bin" ∅
            {[ "a.bin.parquet" := "PAR1 records of a.bin" ]}) as Ha
    by reflexivity.
  assert (@converts Sim.databento "b.bin"
            {[ "a.bin.parquet" := "PAR1 records of a.bin" ]}
            (<[ "b.bin.parquet" := "PAR1 records of b.bin" ]>
               {[ "a.bin.parquet" := "PAR1 records of a.bin" ]})) as Hb
    by reflexivity.
  pose proof (@two_valid_inputs_interleave Sim.databento "dbn_to_parquet.py"
                "a.bin" "b.bin" _ _ _ Ha Hb) as Hw.
  cbv zeta in Hw. destruct Hw as (_ & _ & _ & Hcr & Herr & _).
  split; [exact Ha|]. split; [exact Hb|].
  split; [exact Hcr | exact Herr].
Defined.

(** C6: each input that converts gets exactly two lines on standard error,
    [Processing <f>] and [Created <f>.parquet], in that order and before
    anything written for a later input.  A line is one write ended by a
    newline (one line of text when the filename holds no newline).  The
    output name is the whole input name with the suffix appended, so [a.bin]
    gives [a.bin.parquet]. *)
Theorem two_progress_lines_per_input `{Databento} prog pre post w w1 :
  converts_all pre w w1 →
  pre ++ post ≠ [] →
  let o := main (prog :: pre ++ post) w in
  stderr (events o) =
    (pre ≫= progress_lines) ++ stderr (events (for_in post convert w1)) ∧
  created (events o) =
    (output_name <$> pre) ++ created (events (for_in post convert w1)) ∧
  (post = [] → stderr (events o) = pre ≫= progress_lines) ∧
  (∀ f, progress_lines f =
          [ "Processing " +:+ f +:+ nl;
            "Created " +:+ f +:+ ".parquet" +:+ nl ]) ∧
  (∀ f, occurrences nl f = 0%nat →
        occurrences nl (processing_line f) = 1%nat ∧
        occurrences nl (created_line f) = 1%nat) ∧
  created_line "a.bin" = "Created a.bin.parquet" +:+ nl ∧
  created_line "a.bin" ≠ "Created a.parquet" +:+ nl.
Proof.
  intros Hpre Hne o.
  assert (∃ x l, pre ++ post = x :: l) as (x & l & Hxl).
  { destruct (pre ++ post); [done | eauto]. }
  subst o. rewrite Hxl, main_some_filename, <- Hxl.
  destruct (loop_app pre post w w1 Hpre) as (sts & Hlen & ->).
  rewrite !events_run.
  assert (stderr (mjoin (zip_with round pre sts) ++
                  events (for_in post convert w1)) =
          (pre ≫= progress_lines) ++ stderr (events (for_in post convert w1)))
    as Herr.
  { unfold stderr. rewrite omap_app. f_equal. by apply rounds_stderr. }
  split; [exact Herr|]. split; [|split; [|split; [done|split; [|done]]]].
  - unfold created. rewrite omap_app. f_equal. by apply rounds_created.
  - intros ->. by rewrite Herr, app_nil_r.
  - apply progress_lines_one_line.
Qed.

Lemma two_progress_lines_per_input_witness :
  @converts_all Sim.databento ["a.bin"] ∅
    {[ "a.bin.parquet" := "PAR1 records of a.bin" ]} ∧
  ["a.bin"] ++ [] ≠ ([] : list string) ∧
  stderr (events (@main Sim.databento ["dbn_to_parquet.py"; "a.bin"] ∅))
    = [ "Processing a.bin" +:+ nl; "Created a.bin.parquet" +:+ nl ] ∧
  created (events (@main Sim.databento ["dbn_to_parquet.py"; "a.bin"] ∅))
    = ["a.bin.parquet"].
Proof.
  assert (@converts_all Sim.databento ["a.bin"] ∅
            {[ "a.bin.parquet" := "PAR1 records of a.bin" ]}) as Hpre
    by reflexivity.
  assert (["a.bin"] ++ [] ≠ ([] : list string)) as Hne by (simpl; discriminate).
  pose proof (@two_progress_lines_per_input Sim.databento "dbn_to_parquet.py"
                ["a.bin"] [] _ _ Hpre Hne) as Hw.
  cbv zeta in Hw. destruct Hw as (_ & Hcr & Herr & _).
  split; [exact Hpre|]. split; [exact Hne|].
  split; [exact (Herr eq_refl) | exact Hcr].
Defined.

(** C7: running the program twice on a valid input targets the same output
    file both times.  Under the assumptions that the package is deterministic
    in the files it works on (a load answers by the file at its path and
    changes none; an export answers by its handle, its path and the files
    elsewhere, changes only the file at its path and leaves there the rendering
    of the handle), the second run, started in the world the first left,
    succeeds like the first and performs the same events; the output file,
    written again by the second run, holds the same contents after either
    run, and so does every other file. *)
Theorem rerun_writes_same_output `{Databento} {Content : Type}
    (read : World → string → option Content) (render : Store → Content)
    prog f w w1 :
  load_reads_its_input read →
  export_writes_its_output read render →
  converts f w w1 →
  let o1 := main [prog; f] w in
  let o2 := main [prog; f] (world o1) in
  outcome o1 = Normal tt ∧ outcome o2 = Normal tt ∧
  created (events o1) = [output_name f] ∧
  created (events o2) = [output_name f] ∧
  exports (events o2) = exports (events o1) ∧
  events o2 = events o1 ∧
  (∃ st, call_to_parquet st [output_name f] (inr tt) ∈ events o2 ∧
     read (world o1) (output_name f) = Some (render st) ∧
     read (world o2) (output_name f) = Some (render st)) ∧
  (∀ q, read (world o2) q = read (world o1) q).
Proof.
  intros [Hload Hloadw] (Hexport & Hexportw & Hwrites) Hconv o1 o2.
  unfold converts, conversion in Hconv.
  destruct (from_file [f] w) as [wa [e|st]] eqn:Hl1; [done|].
  (* the first run leaves the input as it was *)
  assert (read w1 f = read w f) as Hinput.
  { pose proof (Hexportw st (f +:+ ".parquet") wa f) as Hx.
    rewrite Hconv in Hx. cbn [fst] in Hx.
    rewrite Hx by (intros Heq; by apply (output_name_ne f)).
    pose proof (Hloadw f w f) as Hy. by rewrite Hl1 in Hy. }
  (* so the second load answers as the first *)
  pose proof (Hload f w1 w Hinput) as Hl2. rewrite Hl1 in Hl2.
  destruct (from_file [f] w1) as [wb r2] eqn:Hl3. cbn [snd] in Hl2. subst r2.
  (* and the second export, with the same files elsewhere, as the first *)
  assert (∀ q, q ≠ f +:+ ".parquet" → read wb q = read wa q) as Helse.
  { intros q Hq.
    pose proof (Hloadw f w1 q) as Hb. rewrite Hl3 in Hb. cbn [fst] in Hb.
    pose proof (Hexportw st (f +:+ ".parquet") wa q Hq) as Ha.
    rewrite Hconv in Ha. cbn [fst] in Ha. by rewrite Hb, Ha. }
  pose proof (Hexport st (f +:+ ".parquet") wb wa Helse) as Hx2.
  rewrite Hconv in Hx2.
  destruct (to_parquet st [f +:+ ".parquet"] wb) as [w2 r3] eqn:Hx3.
  cbn [snd] in Hx2. subst r3.
  assert (main [prog; f] w = (round f st, w1, Normal tt)) as Hrun1
    by (by apply (main_single prog f w wa)).
  assert (main [prog; f] w1 = (round f st, w2, Normal tt)) as Hrun2
    by (by apply (main_single prog f w1 wb)).
  subst o1 o2. rewrite Hrun1, world_run, Hrun2, !events_run, !world_run.
  assert (read w1 (output_name f) = Some (render st)) as Hout1
    by (by eapply Hwrites).
  assert (read w2 (output_name f) = Some (render st)) as Hout2
    by (by eapply Hwrites).
  repeat split; try done.
  - exists st. split; [|done]. unfold round. set_solver.
  - intros q. destruct (decide (q = output_name f)) as [->|Hq].
    + by rewrite Hout1, Hout2.
    + pose proof (Hexportw st (f +:+ ".parquet") wb q Hq) as Hw2.
      rewrite Hx3 in Hw2. cbn [fst] in Hw2.
      pose proof (Hloadw f w1 q) as Hb. rewrite Hl3 in Hb. cbn [fst] in Hb.
      by rewrite Hw2, Hb.
Qed.

Lemma rerun_writes_same_output_witness :
  @load_reads_its_input Disk.databento _ Disk.read ∧
  @export_writes_its_output Disk.databento _ Disk.read Disk.render ∧
  @converts Disk.databento "a.bin" {[ "a.bin" := "DBN records" ]}
    (<[ "a.bin.parquet" := "PAR1 DBN records" ]>
       {[ "a.bin" := "DBN records" ]}) ∧
  created (events (@main Disk.databento ["dbn_to_parquet.py"; "a.bin"]
    (world (@main Disk.databento ["dbn_to_parquet.py"; "a.bin"]
              {[ "a.bin" := "DBN records" ]}))))
    = ["a.bin.parquet"] ∧
  events (@main Disk.databento ["dbn_to_parquet.py"; "a.bin"]
    (world (@main Disk.databento ["dbn_to_parquet.py"; "a.bin"]
              {[ "a.bin" := "DBN records" ]})))
    = events (@main Disk.databento ["dbn_to_parquet.py"; "a.bin"]
                {[ "a.bin" := "DBN records" ]}).
Proof.
  assert (@converts Disk.databento "a.bin" {[ "a.bin" := "DBN records" ]}
            (<[ "a.bin.parquet" := "PAR1 DBN records" ]>
               {[ "a.bin" := "DBN records" ]})) as Hconv
    by reflexivity.
  pose proof (@rerun_writes_same_output Disk.databento _ Disk.read Disk.render
                "dbn_to_parquet.py" "a.bin" _ _
                disk_load_reads_its_input disk_export_writes_its_output Hconv)
    as Hw.
  cbv zeta in Hw. destruct Hw as (_ & _ & _ & Hcr & _ & Hev & _).
  split; [exact disk_load_reads_its_input|].
  split; [exact disk_export_writes_its_output|].
  split; [exact Hconv|]. split; [exact Hcr | exact Hev].
Defined.

(** C8: in every run, each load is immediately preceded on standard error by
    the Processing line of the filename it is given.  So an input that fails
    to decode has its Processing line as the last line written and no Created
    line, and a run ended by a failure has exactly one Processing line more
    than it has Created lines (a run that returns has as many of each). *)
Theorem processing_line_precedes_load `{Databento} argv w :
  let o := main argv w in
  (∀ t1 args res t2,
     events o = t1 ++ call_from_file args res :: t2 →
     ∃ t0 f, args = [f] ∧ t1 = t0 ++ [stderr_write (processing_line f)]) ∧
  (∀ prog pre bad post w1 e w2,
     argv = prog :: pre ++ bad :: post →
     converts_all pre w w1 → fails_to_decode bad w1 e w2 →
     outcome o = Abrupt (Raised e) ∧
     stderr (events o) = (pre ≫= progress_lines) ++ [processing_line bad]) ∧
  (∀ e, outcome o = Abrupt (Raised e) →
     count_lines is_processing_line (stderr (events o)) =
       S (count_lines is_created_line (stderr (events o)))) ∧
  (outcome o = Normal tt →
     count_lines is_processing_line (stderr (events o)) =
       count_lines is_created_line (stderr (events o))).
Proof.
  intros o. split; [|split].
  - subst o. destruct argv as [|prog [|a rest]].
    + rewrite main_no_filename by done. apply usage_run_has_no_load.
    + rewrite main_no_filename by done. apply usage_run_has_no_load.
    + rewrite main_some_filename.
      apply (loop_run_load_preceded _ _ _ (loop_shape (a :: rest) w)).
  - intros prog pre bad post w1 e w2 -> Hpre Hbad%fails_to_decode_fails.
    destruct (main_first_failure prog pre bad post w w1 e w2 Hpre Hbad)
      as (sts & t & Hlen & Hrun & Hstderr & _).
    subst o. rewrite Hrun, outcome_run, events_run. split; [done|].
    unfold stderr in *. rewrite omap_app, Hstderr. f_equal.
    by apply rounds_stderr.
  - subst o. destruct argv as [|prog [|a rest]].
    + rewrite main_no_filename by done. split; intros; discriminate.
    + rewrite main_no_filename by done. split; intros; discriminate.
    + rewrite main_some_filename.
      pose proof (loop_run_counts _ _ _ (loop_shape (a :: rest) w)) as Hc.
      split.
      * intros e He. rewrite He in Hc. lia.
      * intros Hn. rewrite Hn in Hc. lia.
Qed.

(** C9: the usage message is the one line [Usage: dbn_to_parquet.py
    <filename>] ended by a newline, and nothing else is written when no
    filename is given.  It names a single filename although the program takes
    any number: whatever the arguments, when they all convert each of them is
    loaded, and the usage line is not written once a filename is given. *)
Theorem usage_line_names_one_filename `{Databento} :
  usage = "Usage: dbn_to_parquet.py <filename>" +:+ String "010"%char "" ∧
  occurrences nl usage = 1%nat ∧
  occurrences "<filename>" usage = 1%nat ∧
  (∀ argv w, drop 1 argv = [] → stderr (events (main argv w)) = [usage]) ∧
  (∀ prog a rest w, stderr_write usage ∉ events (main (prog :: a :: rest) w)) ∧
  (∀ prog a rest w w',
     converts_all (a :: rest) w w' →
     loads (events (main (prog :: a :: rest) w)) = load_args <$> a :: rest).
Proof.
  split; [reflexivity|]. split; [reflexivity|]. split; [reflexivity|].
  split; [|split].
  - intros argv w Hno. by rewrite main_no_filename.
  - intros prog a rest w. rewrite main_some_filename.
    apply (loop_run_no_usage _ _ _ (loop_shape (a :: rest) w)).
  - intros prog a rest w w' Hall.
    destruct (main_converts_all prog (a :: rest) w w') as (sts & Hlen & ->);
      [done | done |].
    rewrite events_run. by apply rounds_loads.
Qed.

(** C10: there is no option parsing.  Whatever the first argument is, a
    string beginning with a dash included, the program announces it and hands
    it as it is, alone, to the load; the loads of a run are the arguments in
    order, one per call, and the exports the arguments with [.parquet]
    appended, one per call, up to the point where the run ended (all of them
    when it returns).  Every argument is treated so, whatever it looks like:
    an argument whose predecessors converted is announced and handed alone to
    a real call of the load in the world they left, and when that load returns
    its handle is exported with the argument plus [.parquet] as the only
    argument.  A run with a filename ends only by returning or by an
    exception of the package, never by an exit of the program's own, and it
    returns unless the package raised. *)
Theorem arguments_are_paths `{Databento} prog a rest w :
  let o := main (prog :: a :: rest) w in
  (∃ res t, events o =
     stderr_write (processing_line a) :: call_from_file [a] res :: t) ∧
  loads (events o) `prefix_of` (λ f, [f]) <$> (a :: rest) ∧
  exports (events o) `prefix_of` (λ f, [f +:+ ".parquet"]) <$> (a :: rest) ∧
  (outcome o = Normal tt →
     loads (events o) = (λ f, [f]) <$> (a :: rest) ∧
     exports (events o) = (λ f, [f +:+ ".parquet"]) <$> (a :: rest)) ∧
  (∃ res t, events (main (prog :: "--help" :: rest) w) =
     stderr_write ("Processing --help" +:+ nl)
       :: call_from_file ["--help"] res :: t) ∧
  (∀ pre f post w1,
     a :: rest = pre ++ f :: post →
     converts_all pre w w1 →
     ∃ t t',
       events o =
         t ++ stderr_write (processing_line f)
           :: call_from_file [f] (from_file [f] w1).2 :: t' ∧
       loads t = (λ g, [g]) <$> pre ∧
       exports t = (λ g, [g +:+ ".parquet"]) <$> pre ∧
       performed t w w1 ∧
       (∀ w2 st, from_file [f] w1 = (w2, inr st) →
          ∃ t'', t' = call_to_parquet st [f +:+ ".parquet"]
                        (to_parquet st [f +:+ ".parquet"] w2).2 :: t'')) ∧
  performed (events o) w (world o) ∧
  (outcome o = Normal tt ∨ ∃ e, outcome o = Abrupt (Raised e)) ∧
  (outcome o = Normal tt ↔ existsb raised (events o) = false).
Proof.
  intros o. subst o. rewrite !main_some_filename.
  pose proof (loop_shape (a :: rest) w) as Hrun.
  destruct (loop_run_calls _ _ _ Hrun) as (Hl & He & Hn).
  split; [by eapply loop_run_first|].
  split; [exact Hl|]. split; [exact He|]. split; [exact Hn|].
  split; [eapply (loop_run_first "--help"), loop_shape|].
  split; [|split; [|split]].
  - intros pre f post w1 -> Hpre.
    destruct (loop_app_performed pre (f :: post) w w1 Hpre)
      as (t & Hloads & Hexports & Hperf & ->).
    destruct (loop_head f post w1) as (t' & -> & Hexp).
    exists t, t'. rewrite events_run. done.
  - apply loop_performed.
  - rewrite loop_outcome.
    destruct (conversions (a :: rest) w).2 as [e|[]]; [right; by exists e | by left].
  - by eapply loop_run_raised.
Qed.

Lemma arguments_are_paths_witness :
  @converts_all Sim.databento ["a.bin"] ∅
    {[ "a.bin.parquet" := "PAR1 records of a.bin" ]} ∧
  ∃ t t',
    events (@main Sim.databento
              ["dbn_to_parquet.py"; "a.bin"; "--help"; "c.bin"] ∅) =
      t ++ @stderr_write Sim.databento (processing_line "--help")
        :: @call_from_file Sim.databento ["--help"]
             (inr "records of --help") :: t' ∧
    loads t = [["a.bin"]].
Proof.
  assert (@converts_all Sim.databento ["a.bin"] ∅
            {[ "a.bin.parquet" := "PAR1 records of a.bin" ]}) as Hpre
    by reflexivity.
  pose proof (@arguments_are_paths Sim.databento "dbn_to_parquet.py"
                "a.bin" ["--help"; "c.bin"] ∅) as Hw.
  cbv zeta in Hw. destruct Hw as (_ & _ & _ & _ & _ & Hall & _).
  destruct (Hall ["a.bin"] "--help" ["c.bin"] _ eq_refl Hpre)
    as (t & t' & Hev & Hl & _).
  split; [exact Hpre|]. exists t, t'. split; [exact Hev | exact Hl].
Defined.

(** ** Further properties of the program *)

Section More.
Context `{Databento}.

(** The loop over a list in two parts: the second part runs from the world
    the first leaves, unless the first was left by an exception. *)
Lemma for_in_app {A} (xs ys : list A) (body : A → Py unit) w :
  for_in (xs ++ ys) body w =
    match for_in xs body w with
    | (t1, w1, Normal _) =>
        (t1 ++ events (for_in ys body w1),
         world (for_in ys body w1), outcome (for_in ys body w1))
    | (t1, w1, Abrupt x) => (t1, w1, Abrupt x)
    end.
Proof.
  revert w. induction xs as [|x xs IH]; intros w.
  - rewrite app_nil_l, for_in_nil. apply surjective_run.
  - rewrite <- app_comm_cons, !for_in_cons.
    destruct (body x w) as [[t1 w1] [[]|e]]; [|done].
    rewrite IH.
    destruct (for_in xs body w1) as [[t2 w2] [[]|e]];
      rewrite !events_run, ?world_run, ?outcome_run; [|done].
    by rewrite app_assoc.
Qed.

(** In a loop's events every export has, immediately before it, the load of
    its input returning the handle exported, after that input's progress
    line. *)
Lemma loop_run_export_preceded fs t r :
  loop_run fs t r →
  ∀ t1 self args res t2,
    t = t1 ++ call_to_parquet self args res :: t2 →
    ∃ t0 f, args = [output_name f] ∧
      t1 = t0 ++ [stderr_write (processing_line f);
                  call_from_file [f] (inr self)].
Proof.
  induction 1 as [|f fs st t r _ IH|f fs e|f fs st e];
    intros t1 self args res t2 Heq.
  - by destruct t1.
  - destruct t1 as [|x1 [|x2 [|x3 [|x4 t1]]]]; simplify_eq/=.
    + by exists [], f.
    + destruct (IH _ _ _ _ _ eq_refl) as (t0 & g & -> & ->).
      by exists (round f st ++ t0), g.
  - destruct t1 as [|x1 [|x2 [|x3 t1]]]; simplify_eq/=.
  - destruct t1 as [|x1 [|x2 [|x3 [|x4 t1]]]]; simplify_eq/=.
    by exists [], f.
Qed.

(** Nothing follows an event at which the package raised, and the loop is
    then left by an exception of the package. *)
Lemma loop_run_raised_last fs t r :
  loop_run fs t r →
  ∀ t1 e t2, t = t1 ++ e :: t2 → raised e = true →
    t2 = [] ∧ ∃ x, r = Abrupt (Raised x).
Proof.
  induction 1 as [|f fs st t r _ IH|f fs e0|f fs st e0]; intros t1 e t2 Heq Hr.
  - by destruct t1.
  - destruct t1 as [|x1 [|x2 [|x3 [|x4 t1]]]]; simplify_eq/=.
    by eapply IH.
  - destruct t1 as [|x1 [|x2 [|x3 t1]]]; simplify_eq/=. eauto.
  - destruct t1 as [|x1 [|x2 [|x3 [|x4 t1]]]]; simplify_eq/=. eauto.
Qed.

(** A loop returns or is left by an exception of the package. *)
Lemma loop_run_completion fs t r :
  loop_run fs t r → r = Normal tt ∨ ∃ x, r = Abrupt (Raised x).
Proof. induction 1; eauto. Qed.

(** The Created lines of a loop are those of the outputs created. *)
Lemma loop_run_created_lines fs t r :
  loop_run fs t r →
  List.filter is_created_line (stderr t) = created_line_of <$> created t.
Proof.
  induction 1 as [|f fs st t r _ IH|f fs e|f fs st e]; try done.
  rewrite stderr_round.
  change (created (round f st ++ t)) with (output_name f :: created t).
  rewrite fmap_cons. cbn [List.filter].
  rewrite processing_line_not_created, created_line_is_created, IH.
  unfold created_line_of, output_name. by rewrite created_line_code.
Qed.

(** The outputs created are those of the first inputs, in order. *)
Lemma loop_run_created fs t r :
  loop_run fs t r →
  created t `prefix_of` output_name <$> fs ∧
  (r = Normal tt → created t = output_name <$> fs).
Proof.
  induction 1 as [|f fs st t r _ (IHp & IHn)|f fs e|f fs st e].
  - done.
  - change (created (round f st ++ t)) with (output_name f :: created t).
    rewrite fmap_cons. split; [by apply prefix_cons|].
    intros Hr. by rewrite IHn.
  - split; [apply prefix_nil | done].
  - split; [apply prefix_nil | done].
Qed.

(** The tally of a loop: outputs, exports and loads differ by at most one. *)
Lemma loop_run_tally fs t r :
  loop_run fs t r →
  (length (created t) ≤ length (exports t) ≤ length (loads t))%nat ∧
  (length (loads t) ≤ length fs)%nat ∧
  match r with
  | Normal _ => length (created t) = length fs ∧ length (loads t) = length fs
  | Abrupt _ => length (loads t) = S (length (created t)) ∧
                (length (created t) < length fs)%nat
  end.
Proof.
  induction 1 as [|f fs st t r _ IH|f fs e|f fs st e].
  - simpl. lia.
  - change (created (round f st ++ t)) with (output_name f :: created t).
    change (loads (round f st ++ t)) with (load_args f :: loads t).
    change (exports (round f st ++ t)) with (export_args f :: exports t).
    destruct r; simpl in *; lia.
  - simpl. lia.
  - simpl. lia.
Qed.

End More.

(** X1: a batch can be split.  When the first part of the filenames converts,
    one run on all of them does what a run on the first part followed by a run
    on the rest, started in the world the first left, would do: the same
    events in the same order, the same final world, the same outcome. *)
Theorem batch_splits `{Databento} prog prog' pre post w w1 :
  pre ≠ [] → post ≠ [] → converts_all pre w w1 →
  let o := main (prog :: pre ++ post) w in
  let o1 := main (prog :: pre) w in
  let o2 := main (prog' :: post) w1 in
  outcome o1 = Normal tt ∧ world o1 = w1 ∧
  events o = events o1 ++ events o2 ∧
  world o = world o2 ∧ outcome o = outcome o2.
Proof.
  intros Hpre Hpost Hall o o1 o2.
  destruct pre as [|a pre]; [done|]. destruct post as [|b post]; [done|].
  subst o o1 o2. rewrite <- app_comm_cons, !main_some_filename.
  rewrite app_comm_cons, for_in_app.
  pose proof (loop_world (a :: pre) w) as Hw.
  pose proof (loop_outcome (a :: pre) w) as Ho.
  unfold converts_all in Hall. rewrite Hall in Hw, Ho. cbn [fst snd] in Hw, Ho.
  destruct (for_in (a :: pre) convert w) as [[t1 wa] r1].
  rewrite world_run in Hw. rewrite outcome_run in Ho. subst wa r1.
  by rewrite !events_run, !world_run, !outcome_run.
Qed.

Lemma batch_splits_witness :
  ["a.bin"] ≠ [] ∧ ["b.bin"] ≠ [] ∧
  @converts_all Sim.databento ["a.bin"] ∅
    {[ "a.bin.parquet" := "PAR1 records of a.bin" ]} ∧
  events (@main Sim.databento ["dbn_to_parquet.py"; "a.bin"; "b.bin"] ∅) =
    events (@main Sim.databento ["dbn_to_parquet.py"; "a.bin"] ∅) ++
    events (@main Sim.databento ["dbn_to_parquet.py"; "b.bin"]
              {[ "a.bin.parquet" := "PAR1 records of a.bin" ]}).
Proof.
  assert (["a.bin"] ≠ ([] : list string)) as Ha by discriminate.
  assert (["b.bin"] ≠ ([] : list string)) as Hb by discriminate.
  assert (@converts_all Sim.databento ["a.bin"] ∅
            {[ "a.bin.parquet" := "PAR1 records of a.bin" ]}) as Hall
    by reflexivity.
  pose proof (@batch_splits Sim.databento "dbn_to_parquet.py"
                "dbn_to_parquet.py" ["a.bin"] ["b.bin"] _ _ Ha Hb Hall) as Hw.
  cbv zeta in Hw. destruct Hw as (_ & _ & Hev & _).
  split; [exact Ha|]. split; [exact Hb|]. split; [exact Hall | exact Hev].
Defined.

(** X2: filenames added at the end of the command line change nothing of what
    happens before them.  The events of the shorter run begin the events of
    the longer one; if the shorter run was ended by a failure the longer run is
    that same run (events, world and outcome); and the longer run cannot
    return unless the shorter one does. *)
Theorem later_filenames_leave_earlier_rounds `{Databento} prog a rest more w :
  let o := main (prog :: a :: rest) w in
  let o' := main (prog :: (a :: rest) ++ more) w in
  events o `prefix_of` events o' ∧
  (outcome o ≠ Normal tt → o' = o) ∧
  (outcome o' = Normal tt → outcome o = Normal tt).
Proof.
  intros o o'. subst o o'.
  rewrite <- app_comm_cons, !main_some_filename, app_comm_cons, for_in_app.
  destruct (for_in (a :: rest) convert w) as [[t1 w1] [[]|x]].
  - rewrite !events_run, !outcome_run.
    split; [by apply prefix_app_r|]. split; done.
  - rewrite !events_run, !outcome_run. split; [done|]. split; done.
Qed.

(** X3: every export is made on the handle that the load of the same input
    just returned.  In any run, a call of [to_parquet] comes immediately
    after a call of [from_file] on some filename [f] returning the handle
    exported, itself after the Processing line of [f], and the export's only
    argument is [f] with the suffix appended. *)
Theorem export_follows_load_of_same_input `{Databento}
    argv w t1 self args res t2 :
  events (main argv w) = t1 ++ call_to_parquet self args res :: t2 →
  ∃ t0 f, args = [f +:+ ".parquet"] ∧
    t1 = t0 ++ [stderr_write (processing_line f);
                call_from_file [f] (inr self)].
Proof.
  destruct argv as [|prog [|a rest]].
  - rewrite main_no_filename, events_run by done. intros Heq.
    destruct t1 as [|x [|y t1]]; discriminate Heq.
  - rewrite main_no_filename, events_run by done. intros Heq.
    destruct t1 as [|x [|y t1]]; discriminate Heq.
  - rewrite main_some_filename.
    apply (loop_run_export_preceded _ _ _ (loop_shape (a :: rest) w)).
Qed.

Lemma export_follows_load_of_same_input_witness :
  events (@main Sim.databento ["dbn_to_parquet.py"; "a.bin"] ∅) =
    [ @stderr_write Sim.databento (processing_line "a.bin");
      @call_from_file Sim.databento ["a.bin"] (inr "records of a.bin") ] ++
    @call_to_parquet Sim.databento "records of a.bin" ["a.bin.parquet"] (inr tt)
      :: [ @stderr_write Sim.databento (created_line "a.bin") ] ∧
  ∃ t0 f, ["a.bin.parquet"] = [f +:+ ".parquet"] ∧
    [ @stderr_write Sim.databento (processing_line "a.bin");
      @call_from_file Sim.databento ["a.bin"] (inr "records of a.bin") ] =
    t0 ++ [ @stderr_write Sim.databento (processing_line f);
            @call_from_file Sim.databento [f] (inr "records of a.bin") ].
Proof.
  assert (events (@main Sim.databento ["dbn_to_parquet.py"; "a.bin"] ∅) =
    [ @stderr_write Sim.databento (processing_line "a.bin");
      @call_from_file Sim.databento ["a.bin"] (inr "records of a.bin") ] ++
    @call_to_parquet Sim.databento "records of a.bin" ["a.bin.parquet"] (inr tt)
      :: [ @stderr_write Sim.databento (created_line "a.bin") ]) as Hev
    by reflexivity.
  split; [exact Hev|].
  exact (@export_follows_load_of_same_input Sim.databento _ _ _ _ _ _ _ Hev).
Defined.

(** X4: the Created lines tell the truth.  In any run, the lines on standard
    error that begin with [Created] are, in order, exactly the lines
    [Created <path>] for the paths whose export returned; none is written for
    an export that raised or was never made. *)
Theorem created_lines_report_outputs `{Databento} argv w :
  List.filter is_created_line (stderr (events (main argv w))) =
    created_line_of <$> created (events (main argv w)).
Proof.
  destruct argv as [|prog [|a rest]].
  - by rewrite main_no_filename.
  - by rewrite main_no_filename.
  - rewrite main_some_filename.
    apply (loop_run_created_lines _ _ _ (loop_shape (a :: rest) w)).
Qed.

(** X5: distinct inputs never share an output.  In every run the outputs
    created are the names of the first arguments with the suffix appended, in
    order (all of them when the run returns, a repeated filename giving its
    output once per occurrence); when no filename is given twice no output is
    created twice; and an output is never the file it was converted from. *)
Theorem distinct_inputs_distinct_outputs `{Databento} argv w :
  created (events (main argv w)) `prefix_of` output_name <$> drop 1 argv ∧
  (outcome (main argv w) = Normal tt →
     created (events (main argv w)) = output_name <$> drop 1 argv) ∧
  (NoDup (drop 1 argv) → NoDup (created (events (main argv w)))) ∧
  (∀ f, f +:+ ".parquet" ≠ f).
Proof.
  assert (created (events (main argv w)) `prefix_of`
            output_name <$> drop 1 argv ∧
          (outcome (main argv w) = Normal tt →
             created (events (main argv w)) = output_name <$> drop 1 argv))
    as [Hpre Hall].
  { destruct argv as [|prog [|a rest]].
    - rewrite main_no_filename by done. split; [apply prefix_nil | done].
    - rewrite main_no_filename by done. split; [apply prefix_nil | done].
    - rewrite main_some_filename.
      apply (loop_run_created _ _ _ (loop_shape (a :: rest) w)). }
  split; [exact Hpre|]. split; [exact Hall|].
  split; [|apply output_name_ne].
  intros Hnd.
  assert (NoDup (output_name <$> drop 1 argv)) as Hout.
  { apply NoDup_fmap_2; [|done]. intros f g. apply output_name_inj. }
  destruct Hpre as [k Hk]. rewrite Hk in Hout.
  by apply NoDup_app in Hout as [? _].
Qed.

Lemma distinct_inputs_distinct_outputs_witness :
  NoDup (drop 1 ["dbn_to_parquet.py"; "a.bin"; "b.bin"]) ∧
  NoDup (created (events
    (@main Sim.databento ["dbn_to_parquet.py"; "a.bin"; "b.bin"] ∅))) ∧
  created (events
    (@main Sim.databento ["dbn_to_parquet.py"; "a.bin"; "a.bin"] ∅)) =
    ["a.bin.parquet"; "a.bin.parquet"].
Proof.
  assert (NoDup (drop 1 ["dbn_to_parquet.py"; "a.bin"; "b.bin"])) as Hnd.
  { simpl. apply NoDup_cons. split; [|apply NoDup_singleton].
    intros Hin%list_elem_of_singleton. discriminate Hin. }
  split; [exact Hnd|]. split.
  - apply (@distinct_inputs_distinct_outputs Sim.databento _ ∅), Hnd.
  - apply (@distinct_inputs_distinct_outputs Sim.databento
             ["dbn_to_parquet.py"; "a.bin"; "a.bin"] ∅). reflexivity.
Defined.

(** X6: the program does nothing to the world but through the package.  The
    world a run leaves is the one the package's own calls leave when chained
    over the filenames up to the first failure (the world untouched when no
    filename is given), and the run's outcome is the usage exit when there is
    no filename and otherwise what that chain answers. *)
Theorem world_is_what_the_package_leaves `{Databento} argv w :
  world (main argv w) = (conversions (drop 1 argv) w).1 ∧
  outcome (main argv w) =
    match drop 1 argv, (conversions (drop 1 argv) w).2 with
    | [], _ => Abrupt (SystemExit 1)
    | _ :: _, inr _ => Normal tt
    | _ :: _, inl e => Abrupt (Raised e)
    end.
Proof.
  destruct argv as [|prog [|a rest]].
  - by rewrite main_no_filename.
  - by rewrite main_no_filename.
  - rewrite main_some_filename, loop_world, loop_outcome.
    change (drop 1 (prog :: a :: rest)) with (a :: rest). done.
Qed.

(** X7: nothing follows a failure.  In any run, an event at which the package
    raised is the last event: no line is written and no call is made after
    it, and the run ends with an uncaught exception of the package, hence with
    status 1. *)
Theorem nothing_follows_a_failure `{Databento} argv w t1 e t2 :
  events (main argv w) = t1 ++ e :: t2 →
  raised e = true →
  t2 = [] ∧
  (∃ x, outcome (main argv w) = Abrupt (Raised x)) ∧
  exit_status (outcome (main argv w)) = 1.
Proof.
  destruct argv as [|prog [|a rest]].
  - rewrite main_no_filename, events_run by done. intros Heq Hr.
    destruct t1 as [|x [|y t1]]; simplify_eq/=.
  - rewrite main_no_filename, events_run by done. intros Heq Hr.
    destruct t1 as [|x [|y t1]]; simplify_eq/=.
  - rewrite main_some_filename. intros Heq Hr.
    destruct (loop_run_raised_last _ _ _ (loop_shape (a :: rest) w)
                _ _ _ Heq Hr) as (-> & x & Hx).
    split; [done|]. rewrite Hx. split; [by exists x | done].
Qed.

Lemma nothing_follows_a_failure_witness :
  events (@main Sim.databento ["dbn_to_parquet.py"; "bad"; "c"] ∅) =
    [ @stderr_write Sim.databento (processing_line "bad") ] ++
    @call_from_file Sim.databento ["bad"] (inl (Sim.DecodeError "bad")) :: [] ∧
  raised (@call_from_file Sim.databento ["bad"] (inl (Sim.DecodeError "bad")))
    = true ∧
  exit_status (outcome
    (@main Sim.databento ["dbn_to_parquet.py"; "bad"; "c"] ∅)) = 1.
Proof.
  assert (events (@main Sim.databento ["dbn_to_parquet.py"; "bad"; "c"] ∅) =
    [ @stderr_write Sim.databento (processing_line "bad") ] ++
    @call_from_file Sim.databento ["bad"] (inl (Sim.DecodeError "bad")) :: [])
    as Hev by reflexivity.
  assert (raised (@call_from_file Sim.databento ["bad"]
                    (inl (Sim.DecodeError "bad"))) = true) as Hr
    by reflexivity.
  split; [exact Hev|]. split; [exact Hr|].
  apply (@nothing_follows_a_failure Sim.databento _ _ _ _ _ Hev Hr).
Defined.

(** X8: the module runs [main()] only as a program.  Under any other
    [__name__] (the file imported as a module) nothing is written, no call is
    made and the world is untouched; under [__main__] the run is that of
    [main()].  The exit status is then 0 or 1, and it is 1 exactly when the
    file is run as a program and either no filename was given or the package
    raised. *)
Theorem script_runs_main_only_as_program `{Databento} name__ argv w :
  let o := script name__ argv w in
  (name__ ≠ "__main__" → o = ([], w, Normal tt)) ∧
  (name__ = "__main__" → o = main argv w) ∧
  (exit_status (outcome o) = 0 ∨ exit_status (outcome o) = 1) ∧
  (exit_status (outcome o) = 1 ↔
     name__ = "__main__" ∧
     (drop 1 argv = [] ∨ existsb raised (events o) = true)).
Proof.
  intros o. subst o. unfold script.
  destruct (String.eqb_spec name__ "__main__") as [->|Hne].
  - split; [done|]. split; [done|].
    destruct argv as [|prog [|a rest]].
    + rewrite main_no_filename by done. rewrite outcome_run.
      split; [by right|]. split; [by auto | done].
    + rewrite main_no_filename by done. rewrite outcome_run.
      split; [by right|]. split; [by auto | done].
    + rewrite main_some_filename.
      pose proof (loop_shape (a :: rest) w) as Hrun.
      pose proof (loop_run_raised _ _ _ Hrun) as Hraised.
      destruct (loop_run_completion _ _ _ Hrun) as [Hn|[x Hx]].
      * rewrite Hn. split; [by left|]. split; [done|].
        intros [_ [Hd|Hr]]; [discriminate Hd|].
        apply Hraised in Hn. congruence.
      * rewrite Hx. split; [by right|]. split; [|done].
        intros _. split; [done|]. right.
        destruct Hraised as [_ Hback].
        destruct (existsb raised (events (for_in (a :: rest) convert w)));
          [done|].
        specialize (Hback eq_refl). congruence.
  - split; [done|]. split; [done|]. split; [by left|].
    split; [done | by intros [? _]].
Qed.

(** X9: the tally of a run with one filename or more.  Outputs created never
    outnumber exports, nor exports loads, nor loads filenames; there are as
    many outputs as filenames exactly when the status is 0; and a run with
    another status has loaded exactly one file more than it has created
    outputs. *)
Theorem outputs_tally `{Databento} prog a rest w :
  let o := main (prog :: a :: rest) w in
  (length (created (events o)) ≤ length (exports (events o))
     ≤ length (loads (events o)))%nat ∧
  (length (loads (events o)) ≤ length (a :: rest))%nat ∧
  (length (created (events o)) = length (a :: rest) ↔
     exit_status (outcome o) = 0) ∧
  (exit_status (outcome o) ≠ 0 →
     length (loads (events o)) = S (length (created (events o)))).
Proof.
  intros o. subst o. rewrite main_some_filename.
  pose proof (loop_shape (a :: rest) w) as Hrun.
  destruct (loop_run_tally _ _ _ Hrun) as (Hce & Hl & Hr).
  destruct (loop_run_completion _ _ _ Hrun) as [Hn|[x Hx]].
  - rewrite Hn in *. destruct Hr as [Hc _].
    split; [exact Hce|]. split; [exact Hl|]. split; [done|done].
  - rewrite Hx in *. destruct Hr as [Hl1 Hlt].
    split; [exact Hce|]. split; [exact Hl|]. split; [|done].
    split; [lia | done].
Qed.
